(** * fresh-atom: atoms over Preact signals

    A shallow embedding of [mod.ts] (the [Atom] interface, [atom] and
    [useAtom]) over a store of signal objects, and the properties of its
    specification.

    JavaScript values are kept abstract behind the [JsRuntime] interface:
    the atom code inspects a value only through [typeof] and uses a
    function value only by calling it.  A called function is arbitrary
    user code: it receives the store, may write to it, and completes
    either normally or by throwing.  A call that never completes is
    outside the model.

    A signal object carries the value it holds and the effects subscribed
    to it.  An assignment to a signal that changes its value runs those
    effects before it returns; what they do is behind the [Reactive]
    interface, and is as arbitrary as a call.  The operations modelled
    here are the ones a program performs itself, outside an effect, a
    component's rendering or a batch: an effect or a component that reads
    a signal while it runs, and is subscribed to it by that read, is code
    run by a call or by a notification, and so is a batch. *)

From stdpp Require Import base option gmap strings.
From Stdlib Require Import ZArith Lia.

(** ** Store and completions *)

(** A signal object is identified by its address in the store. *)
Abbreviation loc := positive.

(** A signal object: the value it holds, and the effects subscribed to
    it. *)
Record signal_object (V : Type) : Type := SignalObject {
  sig_value : V;
  sig_targets : list V
}.

Arguments SignalObject {V} sig_value sig_targets.
Arguments sig_value {V} s.
Arguments sig_targets {V} s.

(** The store: the signal objects allocated so far. *)
Record heap (V : Type) : Type := Heap {
  objects : gmap positive (signal_object V)
}.

Arguments Heap {V} objects.
Arguments objects {V} h.

Section Store.
Context {V : Type}.

(** The effects subscribed to a signal; none for an address that is not
    allocated. *)
Definition targets (h : heap V) (sig : loc) : list V :=
  default [] (sig_targets <$> objects h !! sig).

(** [h !! sig] is the value the signal holds. *)
#[global] Instance heap_lookup : Lookup loc V (heap V) :=
  λ sig h, sig_value <$> objects h !! sig.

(** [<[sig := v]> h] changes the value the signal holds and keeps its
    subscribers; at a new address it is a signal without subscribers. *)
#[global] Instance heap_insert : Insert loc V (heap V) :=
  λ sig v h, Heap (<[sig := SignalObject v (targets h sig)]> (objects h)).

#[global] Instance heap_empty : Empty (heap V) := Heap ∅.

#[global] Instance heap_singleton : SingletonM loc V (heap V) :=
  λ sig v, Heap {[sig := SignalObject v []]}.

#[global] Instance heap_dom : Dom (heap V) (gset loc) :=
  λ h, dom (objects h).

End Store.

(** How a computation started in some store ends: it returns a result
    and the store it leaves, it throws a value and leaves a store, or it
    leaves the model ([Stuck]: a signal that was never allocated is
    dereferenced, or the harness is taken outside what it models: a
    function applied outside its TypeScript type, subscribers to
    notify). *)
Inductive result (V A : Type) : Type :=
| Ret (a : A) (h : heap V)
| Raise (e : V) (h : heap V)
| Stuck.

Arguments Ret {V A} a h.
Arguments Raise {V A} e h.
Arguments Stuck {V A}.

(** Computations over the store. *)
Definition M (V A : Type) : Type := heap V → result V A.

Definition ret {V A} (a : A) : M V A := λ h, Ret a h.

Definition bind {V A B} (m : M V A) (k : A → M V B) : M V B :=
  λ h, match m h with
       | Ret a h' => k a h'
       | Raise e h' => Raise e h'
       | Stuck => Stuck
       end.

Declare Scope js_scope.
Delimit Scope js_scope with js.
Notation "'let!' x ':=' m 'in' k" := (bind m (λ x, k))
  (at level 10, x name, m at level 100, k at level 200) : js_scope.
Local Open Scope js_scope.

(** The store a computation leaves behind, when it stays in the model. *)
Definition final_heap {V A} (r : result V A) : option (heap V) :=
  match r with
  | Ret _ h => Some h
  | Raise _ h => Some h
  | Stuck => None
  end.

(** ** The JavaScript runtime, as far as [mod.ts] uses it *)

(** The results of the [typeof] operator. *)
Inductive js_type : Set :=
| TUndefined | TObject | TBoolean | TNumber | TBigint | TString | TSymbol | TFunction.

Global Instance js_type_eq_dec : EqDecision js_type.
Proof. solve_decision. Defined.

(** [typeof v] is the operator; [call f arg] is the call [f(arg)], run
    in the current store. *)
Class JsRuntime (V : Type) : Type := {
  typeof : V → js_type;
  call : V → V → M V V
}.

(** The reactive system of [@preact/signals]: [notify ts] runs the
    effects [ts] subscribed to a signal whose value has just changed,
    and whatever they set off in turn.  Effects are user code: they may
    write any signal, and what they throw, or the library's own
    [Error("Cycle detected")], comes out of the assignment. *)
Class Reactive (V : Type) : Type := {
  notify : list V → M V unit
}.

(** No call and no notification frees a signal: whatever was allocated
    before is allocated in the store left behind. *)
Definition keeps_signals {V} `{JsRuntime V} `{Reactive V} : Prop :=
  (∀ (f arg : V) (h h' : heap V),
     final_heap (call f arg h) = Some h' → dom h ⊆ dom h') ∧
  (∀ (ts : list V) (h h' : heap V),
     final_heap (notify ts h) = Some h' → dom h ⊆ dom h').

(** ** [@preact/signals]: a signal's value

    [mod.ts] imports [signal] and uses three things of it: the
    constructor, the [value] getter and the [value] setter.  The setter
    compares the new value with the old one by [!==], which on the values
    modelled is disequality (numbers are integers: [NaN], which differs
    from itself, and [-0], which does not differ from [0], are not among
    them).  An unchanged value is not written and nobody is notified; a
    changed value is written first, and then the signal's subscribers are
    notified, inside the assignment. *)

Module Signals.
Section Signals.
Context {V : Type} `{EqDecision V} `{Reactive V}.

(** [signal(initialValue)]: a new signal object holding [initialValue],
    with no subscriber. *)
Definition signal (initialValue : V) : M V loc :=
  λ h, let sig := fresh (dom h) in Ret sig (<[sig := initialValue]> h).

(** [sig.value], read. *)
Definition value (sig : loc) : M V V :=
  λ h, match h !! sig with
       | Some v => Ret v h
       | None => Stuck
       end.

(** The subscribers of [sig] are notified, when it has any. *)
Definition notify_targets (sig : loc) : M V unit :=
  λ h, match targets h sig with
       | [] => Ret tt h
       | t :: ts => notify (t :: ts) h
       end.

(** [sig.value = v]. *)
Definition set_value (sig : loc) (v : V) : M V unit :=
  λ h, match h !! sig with
       | Some old =>
           if decide (v = old) then Ret tt h
           else notify_targets sig (<[sig := v]> h)
       | None => Stuck
       end.

End Signals.
End Signals.

(** ** [mod.ts] *)

Section Atom.
Context {V : Type} `{EqDecision V} `{Reactive V} `{JsRuntime V}.

(** [interface Atom<T>]: the two closures and the exposed signal. *)
Record Atom : Type := {
  get : M V V;
  set : V → M V unit;
  signal : loc
}.

(** [atom(initialValue)]. *)
Definition atom (initialValue : V) : M V Atom :=
  let! sig := Signals.signal initialValue in
  ret {| get := Signals.value sig;
         set := λ value,
           if decide (typeof value = TFunction) then
             let! prev := Signals.value sig in
             let! next := call value prev in
             Signals.set_value sig next
           else
             Signals.set_value sig value;
         signal := sig |}.

(** [useAtom(atom)]: the pair [[atom.signal.value, atom.set]]. *)
Definition useAtom (atom : Atom) : M V (V * (V → M V unit)) :=
  let! v := Signals.value (signal atom) in
  ret (v, set atom).

End Atom.

Arguments Atom V : clear implicits.

(** ** A concrete runtime: the values of the test-suite and the scenarios *)

Module Harness.

(** Numbers are the integers in JavaScript's safe range, where [+] is
    exact.  Function values are closures of the shapes below. *)
Inductive jsval : Type :=
| JUndefined
| JNum (n : Z)
| JStr (s : string)
| JFun (f : jsfun)
with jsfun : Type :=
| FAdd (k : Z)                           (* prev => prev + k *)
| FConst (v : jsval)                     (* () => v *)
| FThrow (e : jsval)                     (* () => { throw e } *)
| FWriteThrow (sig : loc) (v e : jsval)  (* () => { sig.value = v; throw e } *)
| FWriteKeep (sig : loc) (v : jsval).    (* prev => { sig.value = v; return prev } *)

(** Identity of values, as [===] decides it on them; a closure is
    identified by its shape and what it captured. *)
Fixpoint jsval_eq_dec (x y : jsval) {struct x} : {x = y} + {x ≠ y}
with jsfun_eq_dec (f g : jsfun) {struct f} : {f = g} + {f ≠ g}.
Proof.
  - decide equality; [apply Z.eq_dec | apply String.string_dec].
  - decide equality; try apply Z.eq_dec; apply Pos.eq_dec.
Defined.

#[export] Instance jsval_eq : EqDecision jsval := jsval_eq_dec.

Definition safe_integer (z : Z) : bool :=
  ((- (2 ^ 53 - 1) <=? z) && (z <=? 2 ^ 53 - 1))%Z.

Definition js_typeof (v : jsval) : js_type :=
  match v with
  | JUndefined => TUndefined
  | JNum _ => TNumber
  | JStr _ => TString
  | JFun _ => TFunction
  end.

(** The harness has no effects: no closure subscribes to a signal, so
    the signals of its programs have no subscribers, and a notification
    of subscribers is outside it. *)
#[export] Instance reactive : Reactive jsval :=
  {| notify := λ _ _, Stuck |}.

Definition apply (f : jsfun) (arg : jsval) : M jsval jsval :=
  match f with
  | FAdd k =>
      match arg with
      | JNum n => if safe_integer n && safe_integer k && safe_integer (n + k)
                  then ret (JNum (n + k)) else λ _, Stuck
      | _ => λ _, Stuck
      end
  | FConst v => ret v
  | FThrow e => λ h, Raise e h
  | FWriteThrow sig v e =>
      let! _ := Signals.set_value sig v in λ h, Raise e h
  | FWriteKeep sig v =>
      let! _ := Signals.set_value sig v in ret arg
  end.

Definition js_call (f arg : jsval) : M jsval jsval :=
  match f with
  | JFun c => apply c arg
  | _ => λ _, Stuck
  end.

#[export] Instance runtime : JsRuntime jsval :=
  {| typeof := js_typeof; call := js_call |}.

End Harness.

(** ** Cells *)

Section Cells.
Context {V : Type} `{EqDecision V} `{Reactive V} `{JsRuntime V}.

(** [created c]: some call of [atom] returned the cell [c]. *)
Definition created (c : Atom V) : Prop :=
  ∃ (v : V) (h0 h1 : heap V), atom v h0 = Ret c h1.

(** [f] is a function value that computes [g] on the values of [T],
    without writing to the store and without throwing. *)
Definition pure_function (T : V → Prop) (f : V) (g : V → V) : Prop :=
  typeof f = TFunction ∧
  ∀ (x : V) (h : heap V), T x → call f x h = Ret (g x) h.



(** The effects subscribed to [sig] in [h], if there are any, only
    observe: whatever value is written to [sig], they return and leave
    the store as the write left it. *)
Definition passive (sig : loc) (h : heap V) : Prop :=
  ∀ w : V, Signals.notify_targets sig (<[sig := w]> h) = Ret tt (<[sig := w]> h).

(** In store [h] the cell's signal holds [v], and [get()] returns [v]
    and leaves [h]. *)
Definition holds (c : Atom V) (h : heap V) (v : V) : Prop :=
  h !! signal c = Some v ∧ get c h = Ret v h.

(** What the program around a cell [c] can do next. *)
Inductive op : Type :=
| OGet                          (* c.get() *)
| OSet (value : V)              (* c.set(value) *)
| OUse                          (* useAtom(c) *)
| OAtom (initialValue : V)      (* atom(initialValue): another cell *)
| OWrite (sig : loc) (v : V)    (* sig.value = v, on an exposed signal *)
| OCall (f arg : V).            (* f(arg): any other code *)

Definition perform (c : Atom V) (o : op) : M V unit :=
  match o with
  | OGet => let! _ := get c in ret tt
  | OSet value => set c value
  | OUse => let! _ := useAtom c in ret tt
  | OAtom initialValue => let! _ := atom initialValue in ret tt
  | OWrite sig v => Signals.set_value sig v
  | OCall f arg => let! _ := call f arg in ret tt
  end.

(** The stores in which a cell can find itself: the one its creation
    leaves, and every store left by a further operation, whether that
    operation returned or threw. *)
Inductive reachable (c : Atom V) : heap V → Prop :=
| reachable_created (v : V) (h0 h1 : heap V) :
    atom v h0 = Ret c h1 → reachable c h1
| reachable_step (o : op) (h h' : heap V) :
    reachable c h → final_heap (perform c o h) = Some h' → reachable c h'.

End Cells.

(** ** Programs of the specification *)

Section Programs.
Context {V : Type} `{EqDecision V} `{Reactive V} `{JsRuntime V}.

(** [const cell = atom(v); cell.get()] *)
Definition create_get (v : V) : M V V :=
  let! cell := atom v in get cell.

(** [const cell = atom(v); cell.set(w); cell.get()] *)
Definition create_set_get (v w : V) : M V V :=
  let! cell := atom v in
  let! _ := set cell w in
  get cell.

(** [const x = cell.get(); const y = cell.get(); [x, y]] *)
Definition get_twice (cell : Atom V) : M V (V * V) :=
  let! x := get cell in
  let! y := get cell in
  ret (x, y).

(** [cell.set(first); cell.set(second)] *)
Definition set_twice (cell : Atom V) (first second : V) : M V unit :=
  let! _ := set cell first in
  set cell second.



(** [const [before, setValue] = useAtom(cell); setValue(value);
    const [after] = useAtom(cell); [before, after]] *)
Definition use_set_use (cell : Atom V) (value : V) : M V (V * V) :=
  let! first := useAtom cell in
  let! _ := first.2 value in
  let! second := useAtom cell in
  ret (first.1, second.1).

(** [cell.signal.value = value; cell.get()] *)
Definition write_signal_get (cell : Atom V) (value : V) : M V V :=
  let! _ := Signals.set_value (signal cell) value in
  get cell.

(** [initialValues.map(atom)]: one cell for each value, in order. *)
Fixpoint create_all (initialValues : list V) : M V (list (Atom V)) :=
  match initialValues with
  | [] => ret []
  | v :: rest =>
      let! cell := atom v in
      let! cells := create_all rest in
      ret (cell :: cells)
  end.

End Programs.

(** ** The scenarios, on the concrete runtime *)

Section Scenarios.
Import Harness.
Implicit Types (h : heap jsval).

(** [x => x + 1] and [prev => prev + 5]. *)
Definition increment : jsval := JFun (FAdd 1).
Definition add_five : jsval := JFun (FAdd 5).

(** [const c = atom(0); c.set(x => x + 1); c.set(x => x + 1); c.get()] *)
Definition increment_twice : M jsval jsval :=
  let! c := atom (JNum 0) in
  let! _ := set c increment in
  let! _ := set c increment in
  get c.

(** [const c = atom(10)], then [c.get()], [c.set(20)], [c.get()],
    [c.set(prev => prev + 5)], [c.get()]: the three values read. *)
Definition scenario : M jsval (jsval * jsval * jsval) :=
  let! c := atom (JNum 10) in
  let! first := get c in
  let! _ := set c (JNum 20) in
  let! second := get c in
  let! _ := set c add_five in
  let! third := get c in
  ret (first, second, third).

(** Numbers between -1000 and 1000. *)
Definition small_number (x : jsval) : Prop :=
  ∃ n : Z, x = JNum n ∧ (-1000 ≤ n ≤ 1000)%Z.

Definition plus_five (x : jsval) : jsval :=
  match x with
  | JNum n => JNum (n + 5)
  | _ => x
  end.


End Scenarios.

(** ** Basic facts on the store *)

Section StoreFacts.
Context {V : Type}.
Implicit Types (h : heap V) (v w : V) (sig : loc).

Lemma heap_lookup_unfold h sig : h !! sig = sig_value <$> objects h !! sig.
Proof. reflexivity. Qed.

Lemma heap_insert_unfold h sig v :
  <[sig := v]> h = Heap (<[sig := SignalObject v (targets h sig)]> (objects h)).
Proof. reflexivity. Qed.

Lemma heap_lookup_insert_eq h sig v : (<[sig := v]> h) !! sig = Some v.
Proof.
  rewrite heap_insert_unfold, heap_lookup_unfold. simpl.
  by rewrite lookup_insert_eq.
Qed.

Lemma heap_lookup_insert_ne h sig sig' v :
  sig ≠ sig' → (<[sig := v]> h) !! sig' = h !! sig'.
Proof.
  intros Hne. rewrite heap_insert_unfold, !heap_lookup_unfold. simpl.
  by rewrite lookup_insert_ne.
Qed.

Lemma heap_elem_of_dom h sig : sig ∈ dom h ↔ is_Some (h !! sig).
Proof.
  change (sig ∈ dom (objects h) ↔ is_Some (h !! sig)).
  rewrite elem_of_dom, heap_lookup_unfold. by rewrite fmap_is_Some.
Qed.

Lemma heap_dom_insert h sig v : dom (<[sig := v]> h) = {[sig]} ∪ dom h.
Proof.
  rewrite heap_insert_unfold.
  change (dom (<[sig := SignalObject v (targets h sig)]> (objects h))
          = {[sig]} ∪ dom (objects h)).
  apply dom_insert_L.
Qed.

Lemma heap_dom_insert_subseteq h sig v : dom h ⊆ dom (<[sig := v]> h).
Proof. rewrite heap_dom_insert. apply union_subseteq_r. Qed.

Lemma targets_insert h sig sig' v : targets (<[sig := v]> h) sig' = targets h sig'.
Proof.
  rewrite heap_insert_unfold. unfold targets at 1. simpl.
  destruct (decide (sig = sig')) as [<-|Hne].
  - by rewrite lookup_insert_eq.
  - by rewrite lookup_insert_ne.
Qed.

Lemma targets_unallocated h sig : sig ∉ dom h → targets h sig = [].
Proof.
  intros Hnot. unfold targets.
  destruct (objects h !! sig) as [o|] eqn:Ho; [|done].
  exfalso. apply Hnot. change (sig ∈ dom (objects h)).
  apply elem_of_dom. eauto.
Qed.

Lemma heap_insert_insert h sig v w :
  <[sig := v]> (<[sig := w]> h) = <[sig := v]> h.
Proof.
  rewrite (heap_insert_unfold (<[sig := w]> h)), targets_insert.
  rewrite !heap_insert_unfold. simpl. by rewrite insert_insert_eq.
Qed.

Lemma heap_insert_id h sig v : h !! sig = Some v → <[sig := v]> h = h.
Proof.
  rewrite heap_lookup_unfold, heap_insert_unfold. unfold targets.
  destruct h as [m]. simpl. destruct (m !! sig) as [[x ts]|] eqn:Hm; [|done].
  simpl. intros [= ->]. f_equal. by apply insert_id.
Qed.

End StoreFacts.

(** ** Basic facts on signals and cells *)

Section Facts.
Context {V : Type} `{EqDecision V} `{Reactive V} `{JsRuntime V}.
Implicit Types (c : Atom V) (h : heap V) (v w : V) (sig : loc).

Lemma value_allocated sig h v :
  h !! sig = Some v → Signals.value sig h = Ret v h.
Proof. intros Hv. unfold Signals.value. by rewrite Hv. Qed.

Lemma value_ret sig h v h' :
  Signals.value sig h = Ret v h' → h' = h ∧ h !! sig = Some v.
Proof.
  unfold Signals.value. destruct (h !! sig) eqn:E; [|done].
  by intros [= -> ->].
Qed.

Lemma value_no_raise sig h e h' : Signals.value sig h ≠ Raise e h'.
Proof. unfold Signals.value. by destruct (h !! sig). Qed.

(** A signal without subscribers is passive, and a passive signal stays
    passive when its value changes. *)
Lemma quiet_passive sig h : targets h sig = [] → passive sig h.
Proof.
  intros Hq w. unfold Signals.notify_targets. by rewrite targets_insert, Hq.
Qed.

Lemma passive_insert sig h v : passive sig h → passive sig (<[sig := v]> h).
Proof. intros Hp w. rewrite heap_insert_insert. apply Hp. Qed.

(** The assignment [sig.value = w]: nothing happens when [w] is the
    value held; otherwise [w] is written and then the subscribers are
    notified. *)
Lemma set_value_unfold sig w h old :
  h !! sig = Some old →
  Signals.set_value sig w h =
    if decide (w = old) then Ret tt h
    else Signals.notify_targets sig (<[sig := w]> h).
Proof. intros Hold. unfold Signals.set_value. by rewrite Hold. Qed.


Lemma set_value_passive sig h old w :
  h !! sig = Some old → passive sig h →
  Signals.set_value sig w h = Ret tt (<[sig := w]> h).
Proof.
  intros Hold Hp. rewrite (set_value_unfold _ _ _ _ Hold).
  destruct (decide (w = old)) as [->|Hne]; [|apply Hp].
  by rewrite heap_insert_id.
Qed.

(** When the assignment throws, the value was a new one, the signal has
    subscribers, and the exception comes out of their notification. *)
Lemma set_value_raise sig w h e h' :
  Signals.set_value sig w h = Raise e h' →
  ∃ old, h !! sig = Some old ∧ w ≠ old ∧ targets h sig ≠ [] ∧
         notify (targets h sig) (<[sig := w]> h) = Raise e h'.
Proof.
  unfold Signals.set_value. destruct (h !! sig) as [old|] eqn:Hold; [|done].
  destruct (decide (w = old)) as [->|Hne]; [done|].
  unfold Signals.notify_targets. rewrite targets_insert.
  destruct (targets h sig) as [|t ts]; [done|].
  intros Hn. exists old. by repeat split.
Qed.

Lemma notify_targets_dom sig h h' :
  keeps_signals →
  final_heap (Signals.notify_targets sig h) = Some h' → dom h ⊆ dom h'.
Proof.
  intros [_ Hkeep]. unfold Signals.notify_targets.
  destruct (targets h sig) as [|t ts].
  - by intros [= <-].
  - apply Hkeep.
Qed.

Lemma set_value_dom sig w h h' :
  keeps_signals →
  final_heap (Signals.set_value sig w h) = Some h' → dom h ⊆ dom h'.
Proof.
  intros Hkeep. unfold Signals.set_value.
  destruct (h !! sig) as [old|]; [|done].
  destruct (decide (w = old)); [by intros [= <-]|].
  intros Hn%notify_targets_dom; [|done].
  etransitivity; [apply heap_dom_insert_subseteq|done].
Qed.

(** The store left by a sequence is left by its first part throwing, or
    by its second part. *)
Lemma final_heap_bind {A B} (m : M V A) (k : A → M V B) h h' :
  final_heap (bind m k h) = Some h' →
  (∃ e, m h = Raise e h') ∨
  (∃ a h1, m h = Ret a h1 ∧ final_heap (k a h1) = Some h').
Proof.
  unfold bind. destruct (m h) as [a h1|e h1|]; simpl; intros Hf.
  - right. eauto.
  - left. exists e. congruence.
  - done.
Qed.

Lemma atom_inv v h0 c h1 :
  atom v h0 = Ret c h1 →
  signal c = fresh (dom h0) ∧ h1 = <[signal c := v]> h0.
Proof.
  unfold atom, bind, Signals.signal, ret. intros Hc.
  injection Hc as <- <-. done.
Qed.

Lemma atom_fresh v h0 c h1 : atom v h0 = Ret c h1 → signal c ∉ dom h0.
Proof. intros [-> _]%atom_inv. apply is_fresh. Qed.

(** [atom] always returns, and the cell it returns holds the initial
    value in a new signal. *)
Lemma atom_returns v h :
  ∃ c h', atom v h = Ret c h' ∧ created c ∧ h' !! signal c = Some v.
Proof.
  destruct (atom v h) as [c h'| |] eqn:Hc; try done.
  exists c, h'. split; [done|]. split; [by exists v, h, h'|].
  apply atom_inv in Hc as [_ ->]. apply heap_lookup_insert_eq.
Qed.

(** The signal of a cell just created has no subscriber. *)
Lemma atom_passive v h0 c h1 : atom v h0 = Ret c h1 → passive (signal c) h1.
Proof.
  intros Hc. pose proof (atom_fresh _ _ _ _ Hc) as Hfresh.
  apply atom_inv in Hc as [_ ->]. apply quiet_passive.
  rewrite targets_insert. by apply targets_unallocated.
Qed.

Lemma created_get c : created c → get c = Signals.value (signal c).
Proof.
  intros (v & h0 & h1 & Hc). unfold atom, bind, Signals.signal, ret in Hc.
  by injection Hc as <- _.
Qed.

Lemma created_set c value :
  created c →
  set c value =
    if decide (typeof value = TFunction) then
      let! prev := Signals.value (signal c) in
      let! next := call value prev in
      Signals.set_value (signal c) next
    else Signals.set_value (signal c) value.
Proof.
  intros (v & h0 & h1 & Hc). unfold atom, bind, Signals.signal, ret in Hc.
  by injection Hc as <- _.
Qed.

Lemma created_holds c h v : created c → h !! signal c = Some v → holds c h v.
Proof.
  intros Hc Hv. split; [done|].
  rewrite created_get by done. by apply value_allocated.
Qed.

Lemma holds_insert c h v : created c → holds c (<[signal c := v]> h) v.
Proof. intros Hc. apply created_holds; [done|]. apply heap_lookup_insert_eq. Qed.

(** A plain value: [set] is the assignment of that value. *)
Lemma set_plain c h w :
  created c → typeof w ≠ TFunction →
  set c w h = Signals.set_value (signal c) w h.
Proof.
  intros Hc Hw. rewrite created_set by done. by rewrite decide_False.
Qed.

Lemma set_plain_passive c h cur w :
  created c → h !! signal c = Some cur → typeof w ≠ TFunction →
  passive (signal c) h →
  set c w h = Ret tt (<[signal c := w]> h).
Proof.
  intros Hc Hcur Hw Hp. rewrite set_plain by done.
  by eapply set_value_passive.
Qed.

Lemma set_updater c h cur f :
  created c → h !! signal c = Some cur → typeof f = TFunction →
  set c f h = (let! next := call f cur in Signals.set_value (signal c) next) h.
Proof.
  intros Hc Hcur Hf. rewrite created_set by done.
  rewrite decide_True by done. unfold bind at 1.
  by rewrite (value_allocated _ _ _ Hcur).
Qed.

(** An updater that returns normally: [set] is the assignment of its
    result in the store it leaves. *)
Lemma set_updater_assigns c h cur f next h' :
  created c → h !! signal c = Some cur → typeof f = TFunction →
  call f cur h = Ret next h' →
  set c f h = Signals.set_value (signal c) next h'.
Proof.
  intros Hc Hcur Hf Hcall. rewrite (set_updater c h cur) by done.
  unfold bind. by rewrite Hcall.
Qed.

Lemma set_updater_returns c h cur f next h' :
  created c → h !! signal c = Some cur → typeof f = TFunction →
  call f cur h = Ret next h' → signal c ∈ dom h' → passive (signal c) h' →
  set c f h = Ret tt (<[signal c := next]> h').
Proof.
  intros Hc Hcur Hf Hcall [x Hx]%heap_elem_of_dom Hp.
  rewrite (set_updater_assigns c h cur f next h') by done.
  by eapply set_value_passive.
Qed.



(** No operation around a cell frees a signal. *)
Lemma perform_dom c o h h' :
  keeps_signals → created c →
  final_heap (perform c o h) = Some h' → dom h ⊆ dom h'.
Proof.
  intros Hkeep Hc. pose proof Hkeep as [Hcall _].
  destruct o as [|value| |initialValue|sig v|f arg]; simpl.
  - rewrite created_get by done.
    intros [[e He]|(a & h1 & Ha & Hk)]%final_heap_bind.
    + by apply value_no_raise in He.
    + apply value_ret in Ha as [-> _]. simpl in Hk. by injection Hk as <-.
  - rewrite created_set by done. destruct (decide _) as [Hf|Hf].
    + intros [[e He]|(prev & h1 & Hp & Hk)]%final_heap_bind.
      { by apply value_no_raise in He. }
      apply value_ret in Hp as [-> _].
      apply final_heap_bind in Hk as [[e He]|(next & h2 & Hn & Hk)].
      * apply (Hcall value prev). by rewrite He.
      * transitivity (dom h2).
        { apply (Hcall value prev). by rewrite Hn. }
        by eapply set_value_dom.
    + by apply set_value_dom.
  - unfold useAtom, bind, ret.
    destruct (Signals.value (signal c) h) as [x h2|e h2|] eqn:Hx; simpl.
    + apply value_ret in Hx as [-> _]. by intros [= <-].
    + by apply value_no_raise in Hx.
    + done.
  - intros [= <-]. apply heap_dom_insert_subseteq.
  - by apply set_value_dom.
  - intros [[e He]|(a & h1 & Ha & Hk)]%final_heap_bind.
    + apply (Hcall f arg). by rewrite He.
    + simpl in Hk. injection Hk as <-. apply (Hcall f arg). by rewrite Ha.
Qed.

Lemma reachable_allocated c h :
  keeps_signals → reachable c h → created c ∧ signal c ∈ dom h.
Proof.
  intros Hkeep. induction 1 as [v h0 h1 Hc|o h h' _ [Hc Hin] Hstep].
  - split; [by exists v, h0, h1|].
    apply atom_inv in Hc as [_ ->]. rewrite heap_dom_insert.
    apply elem_of_union. left. by apply elem_of_singleton.
  - split; [done|]. by eapply perform_dom.
Qed.

End Facts.

(** ** Properties of [atom], [get], [set] and [useAtom] *)

Section Properties.
Context {V : Type} `{EqDecision V} `{Reactive V} `{JsRuntime V}.
Implicit Types (c : Atom V) (h : heap V) (v w : V) (sig : loc).

(** C1. For every initial value [v] and every store, [atom(v)] returns a
    cell, and [get()] called on it at once returns [v] itself. *)
Theorem atom_get_initial v h :
  ∃ c h', atom v h = Ret c h' ∧ get c h' = Ret v h' ∧
          create_get v h = Ret v h'.
Proof.
  destruct (atom_returns v h) as (c & h' & Hc & Hcr & Hv).
  exists c, h'. destruct (created_holds c h' v Hcr Hv) as [_ Hget].
  split; [done|]. split; [done|].
  unfold create_get, bind. by rewrite Hc.
Qed.

(** C2, as amended. For all values [v] and [w] with [typeof w] other than
    ['function'], after [atom(v)] and [set(w)], [get()] returns [w]. *)
Theorem set_plain_then_get v w h :
  typeof w ≠ TFunction →
  ∃ c h1 h2, atom v h = Ret c h1 ∧ set c w h1 = Ret tt h2 ∧
             get c h2 = Ret w h2 ∧ create_set_get v w h = Ret w h2.
Proof.
  intros Hw. destruct (atom_returns v h) as (c & h1 & Hc & Hcr & Hv).
  pose proof (atom_passive _ _ _ _ Hc) as Hp.
  exists c, h1, (<[signal c := w]> h1).
  assert (Hset : set c w h1 = Ret tt (<[signal c := w]> h1))
    by (by eapply set_plain_passive).
  destruct (holds_insert c h1 w Hcr) as [_ Hget].
  repeat split; try done.
  unfold create_set_get, bind. by rewrite Hc, Hset.
Qed.

(** C3. For every value [v] of [T] and every pure function [f] from [T]
    to [T], after [atom(v)] and [set(f)], [get()] returns [f(v)]. *)
Theorem set_pure_updater_then_get (T : V → Prop) v f (g : V → V) h :
  pure_function T f g → T v →
  ∃ c h1 h2, atom v h = Ret c h1 ∧ set c f h1 = Ret tt h2 ∧
             get c h2 = Ret (g v) h2 ∧ create_set_get v f h = Ret (g v) h2.
Proof.
  intros [Hf Hpure] Hv.
  destruct (atom_returns v h) as (c & h1 & Hc & Hcr & Hcur).
  pose proof (atom_passive _ _ _ _ Hc) as Hp.
  assert (Hset : set c f h1 = Ret tt (<[signal c := g v]> h1)).
  { eapply set_updater_returns; eauto. apply heap_elem_of_dom; eauto. }
  exists c, h1, (<[signal c := g v]> h1).
  destruct (holds_insert c h1 (g v) Hcr) as [_ Hget].
  repeat split; try done.
  unfold create_set_get, bind. by rewrite Hc, Hset.
Qed.

(** C4. For every cell, [useAtom(cell)] returns a pair whose first
    element is what [cell.get()] returns in the same store, and whose
    second element is the cell's own [set]; the store is left as it was. *)
Theorem useAtom_pair c h v :
  created c → h !! signal c = Some v →
  get c h = Ret v h ∧
  ∃ setValue, useAtom c h = Ret (v, setValue) h ∧ setValue = set c.
Proof.
  intros Hc Hv. split.
  - by apply created_holds.
  - exists (set c). split; [|done].
    unfold useAtom, bind. by rewrite (value_allocated _ _ _ Hv).
Qed.

(** C5, as amended. When the updater throws, [set] makes no assignment
    of its own and the exception reaches the caller as thrown: the store
    after the call is the one the updater left, so the cell still holds
    its previous value whenever the updater did not itself write the
    cell's signal. *)
Theorem set_updater_raises c h cur f e h' :
  created c → h !! signal c = Some cur → typeof f = TFunction →
  call f cur h = Raise e h' →
  set c f h = Raise e h' ∧
  (h' !! signal c = Some cur → get c h' = Ret cur h').
Proof.
  intros Hc Hcur Hf Hcall. split.
  - rewrite (set_updater c h cur) by done. unfold bind. by rewrite Hcall.
  - intros Hkept. by apply created_holds.
Qed.


(** C7. [get] is a read without effect on the store: two calls in a row
    return the same value, the stored one, and leave the store as it was. *)
Theorem get_idempotent c h v :
  created c → h !! signal c = Some v →
  get c h = Ret v h ∧ get_twice c h = Ret (v, v) h.
Proof.
  intros Hc Hv. destruct (created_holds c h v Hc Hv) as [_ Hget].
  split; [done|]. unfold get_twice, bind, ret. by rewrite !Hget.
Qed.

(** C9. In every reachable store the cell's signal holds exactly one
    value, the one [get()] returns, and it does so again in the store any
    call of [set] leaves.  [set] touches the store through the signal
    only: it is the assignment of one value to the cell's signal, made
    in the store the updater left or in the current one.  That value is
    in the signal, and is what [get()] returns, as soon as it is
    written, before any subscriber runs; when the subscribers only
    observe, this is the store [set] returns. *)
Theorem signal_holds_current_value c h :
  keeps_signals → reachable c h →
  ∃ v, holds c h v ∧
    (∀ arg h', final_heap (set c arg h) = Some h' → ∃ x, holds c h' x) ∧
    (∀ arg w hw,
       (if decide (typeof arg = TFunction)
        then call arg v h = Ret w hw
        else w = arg ∧ hw = h) →
       set c arg h = Signals.set_value (signal c) w hw ∧
       holds c (<[signal c := w]> hw) w ∧
       (passive (signal c) hw →
          set c arg h = Ret tt (<[signal c := w]> hw))).
Proof.
  intros Hkeep Hreach.
  destruct (reachable_allocated c h Hkeep Hreach) as [Hc [v Hv]%heap_elem_of_dom].
  exists v. split; [by apply created_holds|]. split.
  - intros arg h' Hfinal.
    assert (Hnext : reachable c h')
      by (by apply (reachable_step c (OSet arg) h h')).
    destruct (reachable_allocated c h' Hkeep Hnext) as [_ [x Hx]%heap_elem_of_dom].
    exists x. by apply created_holds.
  - intros arg w hw Hassign.
    destruct (decide (typeof arg = TFunction)) as [Hf|Hf].
    + pose proof (set_updater_assigns c h v arg w hw Hc Hv Hf Hassign) as Hset.
      assert (Hin : signal c ∈ dom hw).
      { destruct Hkeep as [Hcall _]. apply (Hcall arg v h hw).
        - by rewrite Hassign.
        - apply heap_elem_of_dom; eauto. }
      apply heap_elem_of_dom in Hin as [old Hold].
      split; [done|]. split; [by apply holds_insert|].
      intros Hp. rewrite Hset. by eapply set_value_passive.
    + destruct Hassign as [-> ->].
      split; [by apply set_plain|]. split; [by apply holds_insert|].
      intros Hp. by eapply set_plain_passive.
Qed.


End Properties.

(** ** Further properties: exceptions, composition, allocation *)

Section Further.
Context {V : Type} `{EqDecision V} `{Reactive V} `{JsRuntime V}.
Implicit Types (c : Atom V) (h : heap V) (v w : V) (sig : loc).

(** X1. No exception starts in [mod.ts]: [atom], [get] and [useAtom]
    never throw, and when [set] throws, either its argument is a
    function and the exception is the one that function threw, with the
    store it left, or the exception comes out of the notification of the
    signal's subscribers, after the new value was written. *)
Theorem exceptions_come_from_callbacks c h cur :
  created c → h !! signal c = Some cur →
  (∀ v e h', atom v h ≠ Raise e h') ∧
  (∀ e h', get c h ≠ Raise e h') ∧
  (∀ e h', useAtom c h ≠ Raise e h') ∧
  (∀ arg e h', set c arg h = Raise e h' →
     (typeof arg = TFunction ∧ call arg cur h = Raise e h') ∨
     (∃ w hw,
        (if decide (typeof arg = TFunction)
         then call arg cur h = Ret w hw
         else w = arg ∧ hw = h) ∧
        targets hw (signal c) ≠ [] ∧
        notify (targets hw (signal c)) (<[signal c := w]> hw) = Raise e h')).
Proof.
  intros Hc Hcur. split; [|split; [|split]].
  - intros v e h'. by destruct (atom_returns v h) as (a & h1 & -> & _).
  - intros e h'. rewrite created_get by done. apply value_no_raise.
  - intros e h'. unfold useAtom, bind. by rewrite (value_allocated _ _ _ Hcur).
  - intros arg e h'. rewrite created_set by done.
    destruct (decide (typeof arg = TFunction)) as [Hf|Hf].
    + unfold bind. rewrite (value_allocated _ _ _ Hcur).
      destruct (call arg cur h) as [next h2|e2 h2|] eqn:Hcall; [| |done].
      * intros (old & _ & _ & Hsub & Hn)%set_value_raise.
        right. by exists next, h2.
      * intros [= -> ->]. by left.
    + intros (old & _ & _ & Hsub & Hn)%set_value_raise.
      right. by exists arg, h.
Qed.

(** X2. Plain values do not accumulate: when the subscribers of the
    cell's signal only observe, two calls of [set] with plain values
    leave the store that the second call alone would leave. *)
Theorem set_plain_last_wins c h cur w1 w2 :
  created c → h !! signal c = Some cur → passive (signal c) h →
  typeof w1 ≠ TFunction → typeof w2 ≠ TFunction →
  set_twice c w1 w2 h = Ret tt (<[signal c := w2]> h) ∧
  set_twice c w1 w2 h = set c w2 h.
Proof.
  intros Hc Hcur Hp Hw1 Hw2.
  pose proof (set_plain_passive c h cur w1 Hc Hcur Hw1 Hp) as Hs1.
  pose proof (set_plain_passive c h cur w2 Hc Hcur Hw2 Hp) as Hs2.
  destruct (holds_insert c h w1 Hc) as [Hv1 _].
  pose proof (set_plain_passive c _ w1 w2 Hc Hv1 Hw2
                (passive_insert _ _ w1 Hp)) as Hs12.
  rewrite heap_insert_insert in Hs12.
  assert (Hrun : set_twice c w1 w2 h = Ret tt (<[signal c := w2]> h)).
  { unfold set_twice, bind. by rewrite Hs1. }
  split; [done|]. by rewrite Hrun, Hs2.
Qed.



(** X5. [atom] allocates exactly one signal, a new one, and leaves every
    signal that existed as it was: every cell created earlier still
    holds its value. *)
Theorem atom_allocates_fresh_signal v h :
  ∃ c h', atom v h = Ret c h' ∧
    (signal c ∉ dom h) ∧ dom h' = {[signal c]} ∪ dom h ∧
    (∀ sig, sig ∈ dom h → h' !! sig = h !! sig) ∧
    (∀ (b : Atom V) x, created b → holds b h x → holds b h' x).
Proof.
  destruct (atom_returns v h) as (c & h' & Hc & Hcr & Hv).
  exists c, h'. pose proof (atom_fresh _ _ _ _ Hc) as Hfresh.
  apply atom_inv in Hc as Hinv. destruct Hinv as [_ ->].
  assert (Hframe : ∀ sig, sig ∈ dom h →
            (<[signal c := v]> h) !! sig = h !! sig).
  { intros sig Hin. apply heap_lookup_insert_ne. intros <-. done. }
  split; [done|]. split; [done|]. split; [apply heap_dom_insert|].
  split; [done|]. intros b x Hb [Hx _]. apply created_holds; [done|].
  rewrite Hframe; [done|]. apply heap_elem_of_dom; eauto.
Qed.


(** X7. The setter that [useAtom] returns updates the cell: when the
    subscribers of the cell's signal only observe and the setter is
    called with a plain value, or with a pure updater, the next
    [useAtom] returns the new value, while the value returned before is
    the old one. *)
Theorem useAtom_setter_updates c h v arg :
  created c → h !! signal c = Some v → passive (signal c) h →
  (typeof arg ≠ TFunction →
     use_set_use c arg h = Ret (v, arg) (<[signal c := arg]> h)) ∧
  (∀ (T : V → Prop) (g : V → V), pure_function T arg g → T v →
     use_set_use c arg h = Ret (v, g v) (<[signal c := g v]> h)).
Proof.
  intros Hc Hv Hp.
  assert (Huse : ∀ h0 x, h0 !! signal c = Some x →
            useAtom c h0 = Ret (x, set c) h0).
  { intros h0 x Hx. unfold useAtom, bind. by rewrite (value_allocated _ _ _ Hx). }
  split.
  - intros Hw. unfold use_set_use, bind. rewrite (Huse h v Hv). simpl.
    rewrite (set_plain_passive c h v arg) by done.
    by rewrite (Huse _ arg) by apply heap_lookup_insert_eq.
  - intros T g [Hf Hpure] HT. unfold use_set_use, bind. rewrite (Huse h v Hv). simpl.
    rewrite (set_updater_returns c h v arg (g v) h)
      by (eauto; apply heap_elem_of_dom; eauto).
    by rewrite (Huse _ (g v)) by apply heap_lookup_insert_eq.
Qed.

(** X8. The exposed signal is the one the cell reads: when its
    subscribers only observe, a value written through [cell.signal] is
    what [get()] and [useAtom] return next, whatever its type; a
    function written this way is stored, not called. *)
Theorem signal_write_seen_by_get c h cur w :
  created c → h !! signal c = Some cur → passive (signal c) h →
  write_signal_get c w h = Ret w (<[signal c := w]> h) ∧
  useAtom c (<[signal c := w]> h) = Ret (w, set c) (<[signal c := w]> h).
Proof.
  intros Hc Hcur Hp. destruct (holds_insert c h w Hc) as [Hw Hget]. split.
  - unfold write_signal_get, bind.
    by rewrite (set_value_passive _ _ _ _ Hcur Hp).
  - unfold useAtom, bind. by rewrite (value_allocated _ _ _ Hw).
Qed.

(** X9. Cells created one after the other are pairwise independent:
    their signals are pairwise distinct and new, each cell holds its own
    initial value once all are created, and the signals that existed
    before are untouched. *)
Theorem create_all_distinct (vs : list V) h :
  ∃ cs h', create_all vs h = Ret cs h' ∧
    Forall2 (λ c v, holds c h' v) cs vs ∧
    NoDup (signal <$> cs) ∧
    (∀ c, c ∈ cs → created c ∧ signal c ∉ dom h) ∧
    (∀ sig, sig ∈ dom h → h' !! sig = h !! sig).
Proof.
  revert h. induction vs as [|v vs IH]; intros h.
  - exists [], h. split; [done|]. split; [constructor|].
    split; [constructor|]. split; [|done].
    intros c Hc. by apply elem_of_nil in Hc.
  - destruct (atom_returns v h) as (c & h1 & Hc & Hcr & Hv).
    pose proof (atom_fresh _ _ _ _ Hc) as Hfresh.
    apply atom_inv in Hc as Hinv. destruct Hinv as [_ Hh1].
    destruct (IH h1) as (cs & h' & Hrun & Hholds & Hnodup & Hnew & Hframe).
    assert (Hin1 : signal c ∈ dom h1) by (apply heap_elem_of_dom; eauto).
    assert (Hsub : ∀ sig, sig ∈ dom h → sig ∈ dom h1).
    { intros sig Hin. rewrite Hh1, heap_dom_insert. apply elem_of_union. by right. }
    exists (c :: cs), h'. split; [|split; [|split; [|split]]].
    + simpl. unfold bind. by rewrite Hc, Hrun.
    + constructor; [|done]. apply created_holds; [done|].
      by rewrite Hframe.
    + rewrite fmap_cons. constructor; [|done].
      intros (c' & Heq & Hc')%list_elem_of_fmap.
      destruct (Hnew c' Hc') as [_ Hnot]. rewrite <- Heq in Hnot. done.
    + intros c' [->|Hc']%elem_of_cons; [done|].
      destruct (Hnew c' Hc') as [Hcr' Hnot]. split; [done|].
      intros Hin. by apply Hnot, Hsub.
    + intros sig Hin. rewrite Hframe by (by apply Hsub).
      rewrite Hh1. apply heap_lookup_insert_ne. intros <-. done.
Qed.

(** X10. A write the updater makes to the cell is overwritten when the
    updater returns: when the subscribers of the cell's signal only
    observe, and the updater calls [cell.set(w)] with a plain [w] and
    returns [r], the outer [set] leaves exactly the store that [set(r)]
    alone would leave, and the cell holds [r]. *)
Theorem nested_set_is_overwritten c h cur f w r :
  created c → h !! signal c = Some cur → passive (signal c) h →
  typeof f = TFunction → typeof w ≠ TFunction →
  call f cur h = (let! _ := set c w in ret r) h →
  set c f h = Ret tt (<[signal c := r]> h) ∧
  holds c (<[signal c := r]> h) r.
Proof.
  intros Hc Hcur Hp Hf Hw Hcall.
  unfold bind in Hcall. rewrite (set_plain_passive c h cur w) in Hcall by done.
  split; [|by apply holds_insert].
  rewrite (set_updater_returns c h cur f r (<[signal c := w]> h)); try done.
  - by rewrite heap_insert_insert.
  - rewrite heap_dom_insert. apply elem_of_union. left. by apply elem_of_singleton.
  - by apply passive_insert.
Qed.

End Further.

(** ** The scenarios and concrete instances *)

Section ScenarioProperties.
Import Harness.
Implicit Types (h : heap jsval).

Lemma harness_set_value_dom sig (v : jsval) h h' :
  final_heap (Signals.set_value sig v h) = Some h' → dom h ⊆ dom h'.
Proof.
  unfold Signals.set_value. destruct (h !! sig) as [old|]; [|done].
  destruct (decide (v = old)); [by intros [= <-]|].
  unfold Signals.notify_targets. rewrite targets_insert.
  destruct (targets h sig); [|done].
  intros [= <-]. apply heap_dom_insert_subseteq.
Qed.

Lemma harness_keeps_signals : keeps_signals (V := jsval).
Proof.
  split; [|done].
  intros f arg h h'. simpl. unfold js_call.
  destruct f as [| | |[k|v|e|sig v e|sig v]]; simpl; try done.
  - destruct arg; simpl; try done.
    destruct (_ && _); simpl; [|done]. by intros [= <-].
  - by intros [= <-].
  - by intros [= <-].
  - intros [[e0 He]|([] & h1 & Hw & Hk)]%final_heap_bind.
    + eapply harness_set_value_dom. by rewrite He.
    + simpl in Hk. injection Hk as <-. eapply harness_set_value_dom. by rewrite Hw.
  - intros [[e0 He]|([] & h1 & Hw & Hk)]%final_heap_bind.
    + eapply harness_set_value_dom. by rewrite He.
    + simpl in Hk. injection Hk as <-. eapply harness_set_value_dom. by rewrite Hw.
Qed.

Lemma safe_integer_small (n : Z) :
  (-2000 ≤ n ≤ 2000)%Z → safe_integer n = true.
Proof.
  intros Hn. unfold safe_integer.
  apply andb_true_iff; split; apply Z.leb_le; lia.
Qed.

Lemma add_small (k n : Z) h :
  (-1000 ≤ k ≤ 1000)%Z → (-1000 ≤ n ≤ 1000)%Z →
  call (JFun (FAdd k)) (JNum n) h = Ret (JNum (n + k)) h.
Proof.
  intros Hk Hn. simpl.
  by rewrite !safe_integer_small by lia.
Qed.

Lemma add_five_pure : pure_function small_number add_five plus_five.
Proof.
  split; [done|]. intros x h (n & -> & Hn). by apply add_small.
Qed.

Lemma set_add (c : Atom jsval) h (n k : Z) :
  created c → h !! signal c = Some (JNum n) → passive (signal c) h →
  (-1000 ≤ k ≤ 1000)%Z → (-1000 ≤ n ≤ 1000)%Z →
  set c (JFun (FAdd k)) h = Ret tt (<[signal c := JNum (n + k)]> h).
Proof.
  intros Hc Hn Hp Hk Hn'. eapply set_updater_returns; eauto.
  - by apply add_small.
  - apply heap_elem_of_dom; eauto.
Qed.

(** C8. Sequential updates compose: after [atom(0)] and two calls
    [set(x => x + 1)], [get()] returns 2; and after [atom(10)], [get()]
    returns 10, after [set(20)] it returns 20, and after
    [set(prev => prev + 5)] it returns 25. *)
Theorem sequential_updates h :
  (∃ h', increment_twice h = Ret (JNum 2) h') ∧
  (∃ h', scenario h = Ret (JNum 10, JNum 20, JNum 25) h').
Proof.
  split.
  - destruct (atom_returns (JNum 0) h) as (c & h0 & Hc & Hcr & Hv).
    pose proof (atom_passive _ _ _ _ Hc) as Hp.
    pose proof (set_add c h0 0 1 Hcr Hv Hp ltac:(lia) ltac:(lia)) as Hs1.
    pose proof (holds_insert c h0 (JNum (0 + 1)) Hcr) as [Hv1 _].
    pose proof (set_add c _ (0 + 1) 1 Hcr Hv1 (passive_insert _ _ _ Hp)
                  ltac:(lia) ltac:(lia)) as Hs2.
    pose proof (holds_insert c (<[signal c := JNum (0 + 1)]> h0)
                  (JNum (0 + 1 + 1)) Hcr) as [_ Hg].
    eexists. unfold increment_twice, increment, bind.
    rewrite Hc, Hs1, Hs2, Hg. reflexivity.
  - destruct (atom_returns (JNum 10) h) as (c & h0 & Hc & Hcr & Hv).
    pose proof (atom_passive _ _ _ _ Hc) as Hp.
    pose proof (created_holds c h0 _ Hcr Hv) as [_ Hg0].
    pose proof (set_plain_passive c h0 _ (JNum 20) Hcr Hv ltac:(done) Hp) as Hs1.
    pose proof (holds_insert c h0 (JNum 20) Hcr) as [Hv1 Hg1].
    pose proof (set_add c _ 20 5 Hcr Hv1 (passive_insert _ _ _ Hp)
                  ltac:(lia) ltac:(lia)) as Hs2.
    pose proof (holds_insert c (<[signal c := JNum 20]> h0)
                  (JNum (20 + 5)) Hcr) as [_ Hg2].
    eexists. unfold scenario, add_five, bind.
    rewrite Hc, Hg0, Hs1, Hg1, Hs2, Hg2. reflexivity.
Qed.

(** C2 fails for a value of function type: [set] calls it and stores
    what it returns.  Here the second value is the function [() => 7]. *)
Lemma set_function_value_is_called :
  create_set_get (JNum 1) (JFun (FConst (JNum 7))) ∅
    = Ret (JNum 7) {[1%positive := JNum 7]} ∧
  ¬ ∃ h', create_set_get (JNum 1) (JFun (FConst (JNum 7))) ∅
          = Ret (JFun (FConst (JNum 7))) h'.
Proof.
  assert (Hrun : create_set_get (JNum 1) (JFun (FConst (JNum 7))) ∅
                 = Ret (JNum 7) {[1%positive := JNum 7]})
    by (vm_compute; reflexivity).
  split; [done|]. intros [h' Hh']. rewrite Hrun in Hh'. discriminate.
Qed.

(** C5 fails for an updater that writes the cell's signal before it
    throws: [() => { c.signal.value = 99; throw "boom" }] on a cell
    holding 1 leaves 99 in the cell. *)
Lemma throwing_updater_can_write :
  ∃ c h1 h2,
    atom (JNum 1) ∅ = Ret c h1 ∧ holds c h1 (JNum 1) ∧
    set c (JFun (FWriteThrow (signal c) (JNum 99) (JStr "boom"))) h1
      = Raise (JStr "boom") h2 ∧
    holds c h2 (JNum 99) ∧ ¬ holds c h2 (JNum 1).
Proof.
  eexists _, _, _. split; [reflexivity|].
  split; [split; vm_compute; reflexivity|].
  split; [vm_compute; reflexivity|].
  split; [split; vm_compute; reflexivity|].
  intros [Hv _]. vm_compute in Hv. discriminate.
Qed.


(** *** Instances of the general properties on the test-suite's cell *)

(** The cell of the test-suite: [atom(10)], created in the empty store. *)
Ltac count_atom := by eexists (JNum 10), ∅, _.

(** [atom(10)], [set(20)], [get()]: the second test of the suite. *)
Lemma set_plain_then_get_witness :
  typeof (JNum 20) ≠ TFunction ∧
  ∃ c h1 h2, atom (JNum 10) ∅ = Ret c h1 ∧ set c (JNum 20) h1 = Ret tt h2 ∧
             get c h2 = Ret (JNum 20) h2 ∧
             create_set_get (JNum 10) (JNum 20) ∅ = Ret (JNum 20) h2.
Proof.
  assert (Hw : typeof (JNum 20) ≠ TFunction) by discriminate.
  split; [exact Hw|]. exact (set_plain_then_get (JNum 10) (JNum 20) ∅ Hw).
Defined.

(** [atom(10)], [set(prev => prev + 5)], [get()]: the third test of the
    suite, with [T] the numbers between -1000 and 1000. *)
Lemma set_pure_updater_then_get_witness :
  pure_function small_number add_five plus_five ∧ small_number (JNum 10) ∧
  ∃ c h1 h2, atom (JNum 10) ∅ = Ret c h1 ∧ set c add_five h1 = Ret tt h2 ∧
             get c h2 = Ret (JNum 15) h2 ∧
             create_set_get (JNum 10) add_five ∅ = Ret (JNum 15) h2.
Proof.
  assert (Hv : small_number (JNum 10)) by (exists 10%Z; split; [reflexivity|lia]).
  split; [exact add_five_pure|]. split; [exact Hv|].
  exact (set_pure_updater_then_get small_number (JNum 10) add_five plus_five ∅
           add_five_pure Hv).
Defined.

(** [useAtom] on the cell [atom(10)], in the store its creation leaves. *)
Lemma useAtom_pair_witness :
  ∃ c h, atom (JNum 10) ∅ = Ret c h ∧ h !! signal c = Some (JNum 10) ∧
    get c h = Ret (JNum 10) h ∧
    ∃ setValue, useAtom c h = Ret (JNum 10, setValue) h ∧ setValue = set c.
Proof.
  eexists _, _. split; [reflexivity|].
  assert (Hv : ({[1%positive := JNum 10]} : heap jsval) !! 1%positive
               = Some (JNum 10)) by reflexivity.
  split; [exact Hv|]. apply useAtom_pair; [count_atom | exact Hv].
Defined.

(** [set(() => { throw "boom" })] on the cell [atom(10)]. *)
Lemma set_updater_raises_witness :
  ∃ c h, atom (JNum 10) ∅ = Ret c h ∧ h !! signal c = Some (JNum 10) ∧
    typeof (JFun (FThrow (JStr "boom"))) = TFunction ∧
    call (JFun (FThrow (JStr "boom"))) (JNum 10) h = Raise (JStr "boom") h ∧
    set c (JFun (FThrow (JStr "boom"))) h = Raise (JStr "boom") h ∧
    (h !! signal c = Some (JNum 10) → get c h = Ret (JNum 10) h).
Proof.
  eexists _, _. split; [reflexivity|].
  assert (Hv : ({[1%positive := JNum 10]} : heap jsval) !! 1%positive
               = Some (JNum 10)) by reflexivity.
  split; [exact Hv|]. split; [reflexivity|]. split; [reflexivity|].
  apply set_updater_raises with (cur := JNum 10);
    [count_atom | exact Hv | reflexivity | reflexivity].
Defined.

(** Two reads of the cell [atom(10)]. *)
Lemma get_idempotent_witness :
  ∃ c h, atom (JNum 10) ∅ = Ret c h ∧ h !! signal c = Some (JNum 10) ∧
    get c h = Ret (JNum 10) h ∧ get_twice c h = Ret (JNum 10, JNum 10) h.
Proof.
  eexists _, _. split; [reflexivity|].
  assert (Hv : ({[1%positive := JNum 10]} : heap jsval) !! 1%positive
               = Some (JNum 10)) by reflexivity.
  split; [exact Hv|]. apply get_idempotent; [count_atom | exact Hv].
Defined.

Lemma count_atom_holds :
  ({[1%positive := JNum 10]} : heap jsval) !! 1%positive = Some (JNum 10).
Proof. reflexivity. Qed.

Lemma count_atom_passive :
  passive 1%positive ({[1%positive := JNum 10]} : heap jsval).
Proof. by apply quiet_passive. Qed.



(** The store reached from [atom(10)] by [set(prev => prev + 5)]. *)
Lemma signal_holds_current_value_witness :
  keeps_signals (V := jsval) ∧
  ∃ c h0 h, atom (JNum 10) ∅ = Ret c h0 ∧
    final_heap (perform c (OSet add_five) h0) = Some h ∧
    ∃ v, holds c h v ∧
      (∀ arg h', final_heap (set c arg h) = Some h' → ∃ x, holds c h' x) ∧
      (∀ arg w hw,
         (if decide (typeof arg = TFunction)
          then call arg v h = Ret w hw
          else w = arg ∧ hw = h) →
         set c arg h = Signals.set_value (signal c) w hw ∧
         holds c (<[signal c := w]> hw) w ∧
         (passive (signal c) hw →
            set c arg h = Ret tt (<[signal c := w]> hw))).
Proof.
  split; [exact harness_keeps_signals|].
  eexists _, _, _. split; [reflexivity|]. split; [vm_compute; reflexivity|].
  apply (signal_holds_current_value _ _ harness_keeps_signals).
  eapply reachable_step with (o := OSet add_five).
  - eapply reachable_created with (v := JNum 10) (h0 := ∅). reflexivity.
  - vm_compute. reflexivity.
Defined.


(** *** Instances of the further properties *)

(** On the cell [atom(10)]: where an exception out of [set] comes from. *)
Lemma exceptions_come_from_callbacks_witness :
  ∃ c h, atom (JNum 10) ∅ = Ret c h ∧ h !! signal c = Some (JNum 10) ∧
    ∀ arg e h', set c arg h = Raise e h' →
      (typeof arg = TFunction ∧ call arg (JNum 10) h = Raise e h') ∨
      (∃ w hw,
         (if decide (typeof arg = TFunction)
          then call arg (JNum 10) h = Ret w hw
          else w = arg ∧ hw = h) ∧
         targets hw (signal c) ≠ [] ∧
         notify (targets hw (signal c)) (<[signal c := w]> hw) = Raise e h').
Proof.
  eexists _, _. split; [reflexivity|].
  lazymatch goal with |- ?h !! signal ?c = _ ∧ _ =>
    pose proof (exceptions_come_from_callbacks c h (JNum 10)
                  ltac:(count_atom) count_atom_holds) as Hall
  end.
  split; [exact count_atom_holds|exact (proj2 (proj2 (proj2 Hall)))].
Defined.

(** [atom(10)], [set(20)], [set(30)]. *)
Lemma set_plain_last_wins_witness :
  ∃ c h, atom (JNum 10) ∅ = Ret c h ∧ h !! signal c = Some (JNum 10) ∧
    passive (signal c) h ∧
    typeof (JNum 20) ≠ TFunction ∧ typeof (JNum 30) ≠ TFunction ∧
    set_twice c (JNum 20) (JNum 30) h = Ret tt (<[signal c := JNum 30]> h) ∧
    set_twice c (JNum 20) (JNum 30) h = set c (JNum 30) h.
Proof.
  eexists _, _. split; [reflexivity|]. split; [exact count_atom_holds|].
  split; [exact count_atom_passive|].
  assert (H20 : typeof (JNum 20) ≠ TFunction) by discriminate.
  assert (H30 : typeof (JNum 30) ≠ TFunction) by discriminate.
  split; [exact H20|]. split; [exact H30|].
  apply (set_plain_last_wins _ _ (JNum 10));
    [count_atom|exact count_atom_holds|exact count_atom_passive|exact H20|exact H30].
Defined.




(** [useAtom] on the cell [atom(10)], then [setValue(prev => prev + 5)]. *)
Lemma useAtom_setter_updates_witness :
  ∃ c h, atom (JNum 10) ∅ = Ret c h ∧ h !! signal c = Some (JNum 10) ∧
    passive (signal c) h ∧
    use_set_use c add_five h = Ret (JNum 10, JNum 15) (<[signal c := JNum 15]> h) ∧
    use_set_use c (JNum 20) h = Ret (JNum 10, JNum 20) (<[signal c := JNum 20]> h).
Proof.
  eexists _, _. split; [reflexivity|].
  lazymatch goal with |- ?h !! signal ?c = _ ∧ _ =>
    pose proof (useAtom_setter_updates c h (JNum 10) add_five
                  ltac:(count_atom) count_atom_holds count_atom_passive)
      as [_ Hupd];
    pose proof (useAtom_setter_updates c h (JNum 10) (JNum 20)
                  ltac:(count_atom) count_atom_holds count_atom_passive)
      as [Hplain _]
  end.
  split; [exact count_atom_holds|]. split; [exact count_atom_passive|]. split.
  - apply (Hupd small_number plus_five add_five_pure).
    exists 10%Z. split; [reflexivity|lia].
  - apply Hplain. discriminate.
Defined.

(** [cell.signal.value = () => 7] on the cell [atom(10)]: the function
    is stored. *)
Lemma signal_write_seen_by_get_witness :
  ∃ c h, atom (JNum 10) ∅ = Ret c h ∧ h !! signal c = Some (JNum 10) ∧
    passive (signal c) h ∧
    write_signal_get c (JFun (FConst (JNum 7))) h
      = Ret (JFun (FConst (JNum 7))) (<[signal c := JFun (FConst (JNum 7))]> h) ∧
    useAtom c (<[signal c := JFun (FConst (JNum 7))]> h)
      = Ret (JFun (FConst (JNum 7)), set c)
            (<[signal c := JFun (FConst (JNum 7))]> h).
Proof.
  eexists _, _. split; [reflexivity|]. split; [exact count_atom_holds|].
  split; [exact count_atom_passive|].
  apply (signal_write_seen_by_get _ _ (JNum 10));
    [count_atom|exact count_atom_holds|exact count_atom_passive].
Defined.

(** [cell.set(prev => { cell.signal.value = 99; return prev })] on the
    cell [atom(10)], where the updater does what
    [cell.set(99); return prev] does: the cell still holds 10. *)
Lemma nested_set_is_overwritten_witness :
  ∃ c h, atom (JNum 10) ∅ = Ret c h ∧ h !! signal c = Some (JNum 10) ∧
    passive (signal c) h ∧
    typeof (JFun (FWriteKeep (signal c) (JNum 99))) = TFunction ∧
    typeof (JNum 99) ≠ TFunction ∧
    call (JFun (FWriteKeep (signal c) (JNum 99))) (JNum 10) h
      = (let! _ := set c (JNum 99) in ret (JNum 10)) h ∧
    set c (JFun (FWriteKeep (signal c) (JNum 99))) h
      = Ret tt (<[signal c := JNum 10]> h) ∧
    holds c (<[signal c := JNum 10]> h) (JNum 10).
Proof.
  eexists _, _. split; [reflexivity|]. split; [exact count_atom_holds|].
  split; [exact count_atom_passive|].
  assert (H99 : typeof (JNum 99) ≠ TFunction) by discriminate.
  split; [reflexivity|]. split; [exact H99|]. split; [reflexivity|].
  apply (nested_set_is_overwritten _ _ (JNum 10) _ (JNum 99) (JNum 10));
    [count_atom|exact count_atom_holds|exact count_atom_passive
    |reflexivity|exact H99|reflexivity].
Defined.

End ScenarioProperties.
